(** * EVEFrontAIr: the response chunker of [src/main.py]

    [EVEFrontierBot.split_response] cuts a long answer into messages that
    fit the chat platform's size limit.  This file embeds that method
    (lines 98-118 of [src/main.py]) and the Python string operations it
    calls, and settles the properties the specification states about it.

    Data model
    - a Python [str] is a [string]; [len] is the character count as a [Z];
      the method looks at a character only to tell whether it is the line
      separator, so the 8-bit alphabet of [ascii] loses nothing;
    - a Python [int] ([chunk_size]) is a [Z];
    - a Python [list] of [str] is a [list string]; [append] adds at the end;
    - the truth value of a [str] is "it is not the empty string". *)

From Stdlib Require Import ZArith List Bool Lia.
From Stdlib Require Import Strings.Ascii Strings.String.
Import ListNotations.

Local Open Scope Z_scope.
Local Open Scope list_scope.

(** ** Python string primitives *)

(** The line separator ['\n'] (code point 10). *)
Definition LF : ascii := Ascii.ascii_of_nat 10.

(** [len(s)] *)
Definition len (s : string) : Z := Z.of_nat (String.length s).

(** The truth value of a string in a condition: [if s:]. *)
Definition truthy (s : string) : bool :=
  match s with
  | EmptyString => false
  | String _ _ => true
  end.

(** [s.split('\n')]: the maximal separator-free pieces of [s], in order.
    The result always has one more element than [s] has separators; in
    particular [''.split('\n')] is [['']]. *)
Fixpoint split_lines (s : string) : list string :=
  match s with
  | EmptyString => [EmptyString]
  | String c rest =>
      if Ascii.eqb c LF then EmptyString :: split_lines rest
      else match split_lines rest with
           | line :: lines => String c line :: lines
           | [] => [String c EmptyString]
           end
  end.

(** ['\n'.join(parts)] *)
Fixpoint join_lines (parts : list string) : string :=
  match parts with
  | [] => EmptyString
  | [p] => p
  | p :: more => (p ++ String LF (join_lines more))%string
  end.

(** [s * n] *)
Fixpoint str_mul (s : string) (n : nat) : string :=
  match n with
  | O => EmptyString
  | S k => (s ++ str_mul s k)%string
  end.

(** ** The method [split_response] *)

(** The two local variables the [for] loop updates. *)
Record locals : Type := Locals {
  chunks : list string;
  current_chunk : string
}.

(** [chunks = []; current_chunk = ""] *)
Definition locals0 : locals := Locals [] EmptyString.

(** One iteration of [for line in response.split('\n')]. *)
Definition loop_body (chunk_size : Z) (st : locals) (line : string) : locals :=
  if len (current_chunk st) + len line + 1 >? chunk_size then
    Locals (chunks st ++ [current_chunk st]) line
  else
    let current_chunk' :=
      if truthy (current_chunk st)
      then (current_chunk st ++ String LF EmptyString)%string
      else current_chunk st in
    Locals (chunks st) (current_chunk' ++ line)%string.

(** The statements after the loop:
    [if current_chunk: chunks.append(current_chunk)] and [return chunks]. *)
Definition finish (st : locals) : list string :=
  if truthy (current_chunk st) then chunks st ++ [current_chunk st]
  else chunks st.

(** The whole loop, as a left fold over the lines. *)
Definition run_loop (chunk_size : Z) (lines : list string) (st : locals) : locals :=
  fold_left (loop_body chunk_size) lines st.

Definition split_response (response : string) (chunk_size : Z) : list string :=
  if len response <=? chunk_size then [response]
  else finish (run_loop chunk_size (split_lines response) locals0).

(** The default value of the parameter [chunk_size]. *)
Definition default_chunk_size : Z := 1990.

(** ** The method as a machine

    The same method, one statement group at a time: a configuration is
    either inside the loop, with the lines still to visit, or has
    returned.  [exec] runs the machine with a bound on the number of
    steps and answers [None] when the bound is too small. *)
Inductive config : Type :=
| InLoop (pending : list string) (st : locals)
| Returned (result : list string).

Definition enter (response : string) (chunk_size : Z) : config :=
  if len response <=? chunk_size then Returned [response]
  else InLoop (split_lines response) locals0.

Definition step (chunk_size : Z) (c : config) : config :=
  match c with
  | InLoop [] st => Returned (finish st)
  | InLoop (line :: pending) st => InLoop pending (loop_body chunk_size st line)
  | Returned r => Returned r
  end.

Fixpoint exec (fuel : nat) (chunk_size : Z) (c : config) : option (list string) :=
  match c with
  | Returned r => Some r
  | InLoop _ _ =>
      match fuel with
      | O => None
      | S fuel' => exec fuel' chunk_size (step chunk_size c)
      end
  end.

(** ** The algorithm as the specification words it

    Section 4.1 of the specification describes the slow path as a greedy
    scan whose size test counts the separator only when the buffer is not
    empty.  [spec_body] and [spec_greedy] follow that wording, to be
    compared with [loop_body] and [split_response]. *)
Definition spec_body (chunk_size : Z) (st : locals) (line : string) : locals :=
  let sep := if truthy (current_chunk st) then 1 else 0 in
  if len (current_chunk st) + len line + sep >? chunk_size then
    Locals (chunks st ++ [current_chunk st]) line
  else
    let buffer :=
      if truthy (current_chunk st)
      then (current_chunk st ++ String LF EmptyString)%string
      else current_chunk st in
    Locals (chunks st) (buffer ++ line)%string.

Definition spec_greedy (text : string) (chunk_size : Z) : list string :=
  finish (fold_left (spec_body chunk_size) (split_lines text) locals0).

(** ** Auxiliary predicates *)

(** Does the string contain a line separator? *)
Fixpoint has_LF (s : string) : bool :=
  match s with
  | EmptyString => false
  | String c rest => Ascii.eqb c LF || has_LF rest
  end.

(** Is the string longer than the bound? *)
Definition over_long (chunk_size : Z) (s : string) : bool :=
  len s >? chunk_size.

(** The first element of [response.split('\n')]. *)
Definition first_line (s : string) : string := hd EmptyString (split_lines s).

(** Every line of the text has at least one character. *)
Definition no_blank_line (s : string) : bool := forallb truthy (split_lines s).

(** A chunk respects the bound, or is one line of the input that is
    longer than the bound all by itself. *)
Definition within_bound (chunk_size : Z) (lines : list string) (c : string) : Prop :=
  len c <= chunk_size \/ (In c lines /\ chunk_size < len c).

(** [c] is zero or more consecutive lines of [lines], rejoined with the
    separator.  The run of zero lines is the empty string: this is the
    invariant of the loop, whose buffer starts without any line. *)
Definition joined_run (lines : list string) (c : string) : Prop :=
  exists before run after,
    lines = before ++ run ++ after /\ c = join_lines run.

(** [c] is one or more consecutive lines of [lines], rejoined with the
    separator. *)
Definition line_run (lines : list string) (c : string) : Prop :=
  exists before run after,
    lines = before ++ run ++ after /\ run <> [] /\ c = join_lines run.

(** The strings the locals hold: the finished chunks, then the buffer. *)
Definition held (st : locals) : list string := chunks st ++ [current_chunk st].

(** The over-long strings of a list, in order. *)
Definition long_ones (chunk_size : Z) (l : list string) : list string :=
  filter (over_long chunk_size) l.

(** The buffer holds the last few visited lines. *)
Definition buffer_is_suffix (visited : list string) (st : locals) : Prop :=
  exists before run, visited = before ++ run /\ current_chunk st = join_lines run.

(** A chunk that is one line of the text, longer than the bound by itself. *)
Definition single_over_long_line (chunk_size : Z) (text c : string) : Prop :=
  In c (split_lines text) /\ chunk_size < len c.

(** ** Sample texts *)

(** ["\n"] *)
Definition nl : string := String LF EmptyString.

(** ["a\nb\nc"] *)
Definition abc : string := ("a" ++ nl ++ "b" ++ nl ++ "c")%string.

(** ["a\nb"] *)
Definition a_b : string := ("a" ++ nl ++ "b")%string.

(** ["hello"] *)
Definition hello : string := "hello"%string.

(** ["x" * 2000] *)
Definition x2000 : string := str_mul "x" 2000.

(** ["\nab\ncd"]: the first line is blank. *)
Definition leading_blank : string := (nl ++ "ab" ++ nl ++ "cd")%string.

(** ["ab\ncd"] *)
Definition ab_cd : string := ("ab" ++ nl ++ "cd")%string.


(** ["abc\nd"]: the first line has exactly three characters. *)
Definition exact_fit : string := ("abc" ++ nl ++ "d")%string.

(** ["abcd\ne"]: the first line has more than three characters. *)
Definition long_first : string := ("abcd" ++ nl ++ "e")%string.

(** ** The sealing of an empty buffer *)





(** ** Measures of a list of chunks *)

(** The lines of all the chunks, one chunk after the other. *)
Definition lines_of (cs : list string) : list string := flat_map split_lines cs.

(** The non-empty strings of a list, in order. *)
Definition nonblank (l : list string) : list string := filter truthy l.

(** The number of characters of all the chunks together. *)
Definition total_len (cs : list string) : Z :=
  fold_right (fun c n => len c + n) 0 cs.

(** Each chunk, together with the first line of the chunk after it and a
    separator, fails the size test of the loop. *)
Fixpoint greedy_packed (chunk_size : Z) (cs : list string) : Prop :=
  match cs with
  | [] => True
  | c1 :: rest =>
      match rest with
      | [] => True
      | c2 :: _ => chunk_size < len c1 + len (first_line c2) + 1
      end /\ greedy_packed chunk_size rest
  end.

(** Every line of the text is empty: the text is made of separators only. *)
Definition all_blank (s : string) : bool :=
  forallb (fun line => negb (truthy line)) (split_lines s).

(** Is the first character a line separator? *)
Definition starts_with_LF (s : string) : bool :=
  match s with
  | EmptyString => false
  | String c _ => Ascii.eqb c LF
  end.

(** ** The command around [split_response]

    [SmartAssemblies.create_assembly] is the caller of [split_response];
    it asks [get_claude_response] for the text to split.  The two methods
    talk to three collaborators that [src/main.py] does not define: the
    chat channel ([ctx.send]), the language-model client
    ([self.claude.messages.create]) and the documentation manager
    ([self.bot.doc_manager]).  The collaborators are parameters of the
    model; the world records what the methods did to them. *)

(** The exceptions the methods meet, each with its text [str(e)].
    [OtherException] stands for every other subclass of [Exception]. *)
Inductive exn : Type :=
| AttributeError (text : string)
| OtherException (text : string).

(** [str(e)] *)
Definition exn_text (e : exn) : string :=
  match e with
  | AttributeError t | OtherException t => t
  end.

(** A call returns a value or raises. *)
Inductive outcome (A : Type) : Type :=
| Ok (a : A)
| Raise (e : exn).

Arguments Ok {A} a.
Arguments Raise {A} e.

(** One element of [messages]: [{"role": ..., "content": ...}]. *)
Record message : Type := Message {
  role : string;
  content : string
}.

(** The keyword arguments of [messages.create]. *)
Record request : Type := Request {
  model : string;
  max_tokens : Z;
  messages : list message;
  system : string
}.

(** One element of the [content] attribute of the client's response. *)
Record content_block : Type := ContentBlock {
  block_text : string
}.

(** The values that [get_claude_response] returns and that then reach
    [split_response] and [ctx.send]: the [content] of the client's
    response, which is a list of content blocks, or a [str]. *)
Inductive value : Type :=
| Content (blocks : list content_block)
| Text (s : string).

(** What the methods did: the values the channel accepted, the lines
    written with [logger.error], the requests made to the client. *)
Record world : Type := World {
  outbox : list value;
  log : list string;
  requests : list request
}.

(** The collaborators: the content of the client's response to a request,
    or the exception it raises; the exception the channel raises for a
    value, if it refuses it. *)
Record collaborators : Type := Collaborators {
  claude_create : request -> outcome (list content_block);
  channel_send : value -> option exn
}.

(** A method body: it changes the world and returns or raises. *)
Definition action (A : Type) : Type := world -> outcome A * world.

Definition ret {A : Type} (a : A) : action A := fun w => (Ok a, w).

Definition raise {A : Type} (e : exn) : action A := fun w => (Raise e, w).

Definition bind {A B : Type} (m : action A) (k : A -> action B) : action B :=
  fun w =>
    match m w with
    | (Ok a, w') => k a w'
    | (Raise e, w') => (Raise e, w')
    end.

Notation "x <- m ;; k" := (bind m (fun x => k))
  (at level 61, m at next level, right associativity).
Notation "m ;;; k" := (bind m (fun _ => k))
  (at level 61, right associativity).

(** [await ctx.send(msg)] *)
Definition send (env : collaborators) (msg : value) : action unit :=
  fun w =>
    match channel_send env msg with
    | None => (Ok tt, World (outbox w ++ [msg]) (log w) (requests w))
    | Some e => (Raise e, w)
    end.

(** [logger.error(line)] *)
Definition logger_error (line : string) : action unit :=
  fun w => (Ok tt, World (outbox w) (log w ++ [line]) (requests w)).

(** The indentation of the continuation lines of the prompt literal. *)
Definition indent : string := "            "%string.

(** The f-string of [get_claude_response]; a missing context and an empty
    one are both replaced. *)
Definition system_prompt (context : option string) : string :=
  ("You are an EVE Frontier development assistant specializing in Smart Assembly creation and MUD framework integration."
   ++ nl ++ indent ++ "Your goal is to help developers create and modify Smart Assemblies."
   ++ nl ++ indent
   ++ nl ++ indent ++ "Current context:"
   ++ nl ++ indent
   ++ match context with
      | Some c => if truthy c then c else "No additional context provided"
      | None => "No additional context provided"
      end
   ++ nl ++ indent)%string.

(** The arguments [get_claude_response] passes to the client. *)
Definition claude_request (query : string) (context : option string) : request :=
  Request "claude-3-sonnet-20240229" 4096 [Message "user" query] (system_prompt context).

(** The reply of [get_claude_response] when the client raises. *)
Definition apology : string :=
  "I encountered an error while processing your request."%string.

(** [get_claude_response(query, context)]: [response.content] when the
    client answers, the apology, a [str], when it raises. *)
Definition get_claude_response (env : collaborators)
    (query : string) (context : option string) : action value :=
  fun w =>
    let req := claude_request query context in
    let w' := World (outbox w) (log w) (requests w ++ [req]) in
    match claude_create env req with
    | Ok response_content => (Ok (Content response_content), w')
    | Raise e =>
        (logger_error ("Error getting Claude response: " ++ exn_text e) ;;;
         ret (Text apology)) w'
    end.

(** [split_response] on the values that reach it.  On a [str] it is the
    method as embedded above.  On a list, [len] counts the elements, the
    fast path returns the list as the only chunk, and the slow path raises
    at [response.split], which a list does not have. *)
Definition split_response_any (response : value) (chunk_size : Z)
  : outcome (list value) :=
  match response with
  | Text s => Ok (map Text (split_response s chunk_size))
  | Content blocks =>
      if Z.of_nat (List.length blocks) <=? chunk_size then Ok [Content blocks]
      else Raise (AttributeError "'list' object has no attribute 'split'")
  end.

(** The attribute of the bot that the command reads.  [doc_manager] is
    [None] or an object whose [get_assembly_docs] returns the context. *)
Record bot : Type := Bot {
  doc_manager : option (string -> outcome (option string))
}.

(** [for chunk in chunks: await ctx.send(chunk)] *)
Fixpoint send_all (env : collaborators) (cs : list value) : action unit :=
  match cs with
  | [] => ret tt
  | chunk :: rest => send env chunk ;;; send_all env rest
  end.

(** The query [create_assembly] asks. *)
Definition create_query (assembly_type : string) : string :=
  ("How do I create a " ++ assembly_type ++ " Smart Assembly?")%string.

(** [SmartAssemblies.create_assembly(ctx, assembly_type)] *)
Definition create_assembly (env : collaborators) (b : bot)
    (assembly_type : string) : action unit :=
  match doc_manager b with
  | None => raise (AttributeError "'NoneType' object has no attribute 'get_assembly_docs'")
  | Some get_assembly_docs =>
      match get_assembly_docs assembly_type with
      | Raise e => raise e
      | Ok context =>
          response <- get_claude_response env (create_query assembly_type) context ;;
          match split_response_any response default_chunk_size with
          | Raise e => raise e
          | Ok cs => send_all env cs
          end
      end
  end.

(** ** Sample collaborators *)

(** A channel that accepts every value. *)
Definition accepting_channel (msg : value) : option exn := None.

(** A client that always raises. *)
Definition failing_client (req : request) : outcome (list content_block) :=
  Raise (OtherException "timeout").

(** A documentation manager without documents. *)
Definition bot_with_docs : bot := Bot (Some (fun _ => Ok None)).

(** The world before anything happened. *)
Definition world0 : world := World [] [] [].

(** ** Facts about the string primitives *)

Section StringFacts.

Lemma len_nonneg (s : string) : 0 <= len s.
Proof. unfold len; lia. Qed.

Lemma len_empty : len EmptyString = 0.
Proof. reflexivity. Qed.

Lemma len_String (c : ascii) (s : string) : len (String c s) = 1 + len s.
Proof. unfold len; cbn [String.length]; lia. Qed.

Lemma len_append (s t : string) : len (s ++ t) = len s + len t.
Proof.
  induction s as [|c s IH]; cbn [String.append].
  - rewrite len_empty; lia.
  - rewrite !len_String, IH; lia.
Qed.

Lemma append_assoc (s t u : string) :
  ((s ++ t) ++ u)%string = (s ++ (t ++ u))%string.
Proof. induction s as [|c s IH]; cbn; [reflexivity | now rewrite IH]. Qed.

Lemma truthy_false (s : string) : truthy s = false <-> s = EmptyString.
Proof. destruct s; cbn; split; congruence. Qed.


Lemma truthy_append_l (s t : string) : truthy s = true -> truthy (s ++ t) = true.
Proof. destruct s; cbn; congruence. Qed.

(** [split] never answers the empty list. *)
Lemma split_lines_cons (s : string) :
  exists line lines, split_lines s = line :: lines.
Proof.
  destruct s as [|c s]; cbn [split_lines]; [now do 2 eexists|].
  destruct (Ascii.eqb c LF); [now do 2 eexists|].
  destruct (split_lines s); now do 2 eexists.
Qed.

Lemma join_lines_cons2 (p q : string) (more : list string) :
  join_lines (p :: q :: more) = (p ++ String LF (join_lines (q :: more)))%string.
Proof. reflexivity. Qed.

(** [join] undoes [split]. *)
Lemma join_split (s : string) : join_lines (split_lines s) = s.
Proof.
  induction s as [|c s IH]; [reflexivity|].
  cbn [split_lines].
  destruct (split_lines_cons s) as (l & ls & E).
  rewrite E in IH |- *.
  destruct (Ascii.eqb_spec c LF) as [->|_].
  - rewrite join_lines_cons2, IH. reflexivity.
  - destruct ls as [|q ls].
    + cbn [join_lines] in *. now rewrite IH.
    + rewrite join_lines_cons2 in *. cbn [String.append]. now rewrite IH.
Qed.

(** No line is longer than the text it comes from. *)
Lemma split_lines_len (s line : string) :
  In line (split_lines s) -> len line <= len s.
Proof.
  revert line; induction s as [|c s IH]; intros line; cbn [split_lines].
  - intros [<-|[]]; lia.
  - rewrite len_String.
    destruct (split_lines_cons s) as (l & ls & E). rewrite E in *.
    destruct (Ascii.eqb c LF).
    + intros [<-|H]; [rewrite len_empty; pose proof (len_nonneg s); lia|].
      specialize (IH _ H); lia.
    + intros [<-|H].
      * rewrite len_String. specialize (IH l (or_introl eq_refl)); lia.
      * specialize (IH _ (or_intror H)); lia.
Qed.

(** The pieces of [split] contain no separator. *)
Lemma split_lines_no_LF (s line : string) :
  In line (split_lines s) -> has_LF line = false.
Proof.
  revert line; induction s as [|c s IH]; intros line; cbn [split_lines].
  - now intros [<-|[]].
  - destruct (split_lines_cons s) as (l & ls & E). rewrite E in *.
    destruct (Ascii.eqb c LF) eqn:Ec.
    + intros [<-|H]; [reflexivity | now apply IH].
    + intros [<-|H].
      * cbn [has_LF]. rewrite Ec. apply IH. now left.
      * apply IH. now right.
Qed.

(** So the exception of the size bound only concerns separator-free chunks. *)
Lemma single_over_long_line_no_LF (chunk_size : Z) (text c : string) :
  single_over_long_line chunk_size text c -> has_LF c = false.
Proof. intros [Hin _]. now apply split_lines_no_LF in Hin. Qed.

(** Two neighbours glued with a separator join like the two of them. *)
Lemma join_lines_glue (before : list string) (p q : string) (after : list string) :
  join_lines (before ++ (p ++ String LF q)%string :: after)
  = join_lines (before ++ p :: q :: after).
Proof.
  induction before as [|b before IH]; cbn [app].
  - rewrite join_lines_cons2.
    destruct after as [|a after].
    + reflexivity.
    + rewrite !join_lines_cons2. now rewrite append_assoc.
  - destruct before as [|b' before]; cbn [app] in *.
    + now rewrite !join_lines_cons2, IH.
    + now rewrite !join_lines_cons2, IH.
Qed.

Lemma join_lines_snoc (run : list string) (line : string) :
  run <> [] ->
  join_lines (run ++ [line]) = (join_lines run ++ String LF line)%string.
Proof.
  induction run as [|p run IH]; [congruence | intros _].
  destruct run as [|q run]; [reflexivity|].
  cbn [app] in *. rewrite !join_lines_cons2, IH by congruence.
  now rewrite append_assoc.
Qed.

End StringFacts.

(** ** Facts about the loop *)

Section LoopFacts.

Variable chunk_size : Z.

Lemma run_loop_cons (line : string) (lines : list string) (st : locals) :
  run_loop chunk_size (line :: lines) st
  = run_loop chunk_size lines (loop_body chunk_size st line).
Proof. reflexivity. Qed.

(** The three ways one iteration can go. *)
Lemma loop_body_seal (st : locals) (line : string) :
  chunk_size < len (current_chunk st) + len line + 1 ->
  loop_body chunk_size st line = Locals (chunks st ++ [current_chunk st]) line.
Proof.
  intros H. unfold loop_body.
  destruct (Z.gtb_spec (len (current_chunk st) + len line + 1) chunk_size);
    [reflexivity | lia].
Qed.

Lemma loop_body_start (st : locals) (line : string) :
  len (current_chunk st) + len line + 1 <= chunk_size ->
  truthy (current_chunk st) = false ->
  loop_body chunk_size st line = Locals (chunks st) line.
Proof.
  intros H E. unfold loop_body.
  destruct (Z.gtb_spec (len (current_chunk st) + len line + 1) chunk_size); [lia|].
  rewrite E. apply truthy_false in E. now rewrite E.
Qed.

Lemma loop_body_extend (st : locals) (line : string) :
  len (current_chunk st) + len line + 1 <= chunk_size ->
  truthy (current_chunk st) = true ->
  loop_body chunk_size st line
  = Locals (chunks st) (current_chunk st ++ String LF line)%string.
Proof.
  intros H E. unfold loop_body.
  destruct (Z.gtb_spec (len (current_chunk st) + len line + 1) chunk_size); [lia|].
  rewrite E, append_assoc. reflexivity.
Qed.

(** Every iteration falls under one of the three. *)
Lemma loop_body_cases (st : locals) (line : string) :
  (chunk_size < len (current_chunk st) + len line + 1
   /\ loop_body chunk_size st line = Locals (chunks st ++ [current_chunk st]) line)
  \/ (len (current_chunk st) + len line + 1 <= chunk_size
      /\ current_chunk st = EmptyString
      /\ loop_body chunk_size st line = Locals (chunks st) line)
  \/ (len (current_chunk st) + len line + 1 <= chunk_size
      /\ truthy (current_chunk st) = true
      /\ loop_body chunk_size st line
         = Locals (chunks st) (current_chunk st ++ String LF line)%string).
Proof.
  destruct (Z.lt_ge_cases chunk_size (len (current_chunk st) + len line + 1)) as [H|H].
  - left. split; [assumption | now apply loop_body_seal].
  - right. destruct (truthy (current_chunk st)) eqn:E.
    + right. repeat split; [lia | now apply loop_body_extend].
    + left. repeat split; [lia | now apply truthy_false | now apply loop_body_start].
Qed.

(** A property of the locals that every iteration keeps holds after the loop. *)
Lemma run_loop_invariant (I : locals -> Prop) (lines : list string) :
  (forall st line, In line lines -> I st -> I (loop_body chunk_size st line)) ->
  forall st, I st -> I (run_loop chunk_size lines st).
Proof.
  induction lines as [|line lines IH]; intros Hstep st Hst; [exact Hst|].
  rewrite run_loop_cons. apply IH.
  - intros st' l Hl. apply Hstep. now right.
  - apply Hstep; [now left | exact Hst].
Qed.

(** The list of finished chunks only grows at its end. *)
Lemma loop_body_chunks_prefix (st : locals) (line : string) :
  exists more, chunks (loop_body chunk_size st line) = chunks st ++ more.
Proof.
  destruct (loop_body_cases st line)
    as [(_ & ->)|[(_ & _ & ->)|(_ & _ & ->)]]; cbn [chunks].
  - now eexists.
  - exists []. now rewrite app_nil_r.
  - exists []. now rewrite app_nil_r.
Qed.

Lemma run_loop_chunks_prefix (lines : list string) (st : locals) :
  exists more, chunks (run_loop chunk_size lines st) = chunks st ++ more.
Proof.
  revert st; induction lines as [|line lines IH]; intros st.
  - exists []. cbn. now rewrite app_nil_r.
  - rewrite run_loop_cons.
    destruct (IH (loop_body chunk_size st line)) as (m2 & ->).
    destruct (loop_body_chunks_prefix st line) as (m1 & ->).
    exists (m1 ++ m2). now rewrite app_assoc.
Qed.

Lemma finish_chunks_prefix (st : locals) :
  exists more, finish st = chunks st ++ more.
Proof.
  unfold finish. destruct (truthy (current_chunk st)).
  - now eexists.
  - exists []. now rewrite app_nil_r.
Qed.

End LoopFacts.

(** ** The two paths of [split_response] *)

Lemma split_response_fast (response : string) (chunk_size : Z) :
  len response <= chunk_size -> split_response response chunk_size = [response].
Proof.
  intros H. unfold split_response.
  destruct (Z.leb_spec (len response) chunk_size); [reflexivity | lia].
Qed.

Lemma split_response_slow (response : string) (chunk_size : Z) :
  chunk_size < len response ->
  split_response response chunk_size
  = finish (run_loop chunk_size (split_lines response) locals0).
Proof.
  intros H. unfold split_response.
  destruct (Z.leb_spec (len response) chunk_size); [lia | reflexivity].
Qed.

(** ** The size bound *)

Section Bound.

Variable chunk_size : Z.
Variable lines : list string.

Lemma loop_body_within_bound (st : locals) (line : string) :
  In line lines ->
  Forall (within_bound chunk_size lines) (held st) ->
  Forall (within_bound chunk_size lines) (held (loop_body chunk_size st line)).
Proof.
  unfold held. intros Hin Hst.
  apply Forall_app in Hst as [Hch Hcur].
  assert (Hline : within_bound chunk_size lines line).
  { destruct (Z.le_gt_cases (len line) chunk_size);
      [now left | right; split; [assumption | lia]]. }
  destruct (loop_body_cases chunk_size st line)
    as [(_ & ->)|[(_ & _ & ->)|(Hfit & _ & ->)]]; cbn [chunks current_chunk].
  - repeat (apply Forall_app; split); auto.
  - apply Forall_app; split; auto.
  - apply Forall_app; split; [exact Hch|].
    constructor; [left | constructor].
    rewrite len_append, len_String. lia.
Qed.

Lemma finish_within_bound (st : locals) :
  Forall (within_bound chunk_size lines) (held st) ->
  Forall (within_bound chunk_size lines) (finish st).
Proof.
  unfold held, finish. intros Hst.
  destruct (truthy (current_chunk st)); [exact Hst|].
  now apply Forall_app in Hst as [Hch _].
Qed.

End Bound.

Lemma split_response_within_bound (text : string) (chunk_size : Z) :
  0 <= chunk_size ->
  Forall (within_bound chunk_size (split_lines text)) (split_response text chunk_size).
Proof.
  intros Hpos.
  destruct (Z.le_gt_cases (len text) chunk_size) as [Hfast|Hslow].
  - rewrite split_response_fast by assumption.
    constructor; [now left | constructor].
  - rewrite split_response_slow by lia.
    apply finish_within_bound.
    apply run_loop_invariant with
      (I := fun st => Forall (within_bound chunk_size (split_lines text)) (held st)).
    + intros st line Hin Hst. now apply loop_body_within_bound.
    + unfold held; cbn [chunks current_chunk locals0 app].
      constructor; [left; rewrite len_empty; lia | constructor].
Qed.

(** ** Over-long lines *)

Section OverLong.

Variable chunk_size : Z.

Lemma over_long_true (s : string) :
  over_long chunk_size s = true <-> chunk_size < len s.
Proof.
  unfold over_long.
  destruct (Z.gtb_spec (len s) chunk_size); split; (lia || congruence).
Qed.

Lemma over_long_false (s : string) :
  over_long chunk_size s = false <-> len s <= chunk_size.
Proof.
  unfold over_long.
  destruct (Z.gtb_spec (len s) chunk_size); split; (lia || congruence).
Qed.

Lemma long_ones_app (l1 l2 : list string) :
  long_ones chunk_size (l1 ++ l2) = long_ones chunk_size l1 ++ long_ones chunk_size l2.
Proof. apply filter_app. Qed.

Lemma long_ones_short (s : string) :
  len s <= chunk_size -> long_ones chunk_size [s] = [].
Proof. intros H. cbn. apply over_long_false in H. now rewrite H. Qed.

Lemma long_ones_all_short (l : list string) :
  (forall s, In s l -> len s <= chunk_size) -> long_ones chunk_size l = [].
Proof.
  induction l as [|x l IH]; intros H; [reflexivity|].
  change (x :: l) with ([x] ++ l).
  rewrite long_ones_app, long_ones_short by (apply H; now left).
  apply IH. intros s Hs. apply H. now right.
Qed.

(** One iteration adds the visited line to the over-long strings held in
    the locals exactly when the line is over-long. *)
Lemma loop_body_long_ones (st : locals) (line : string) :
  long_ones chunk_size (held (loop_body chunk_size st line))
  = long_ones chunk_size (held st) ++ long_ones chunk_size [line].
Proof.
  pose proof (len_nonneg (current_chunk st)) as Hc.
  pose proof (len_nonneg line) as Hl.
  unfold held.
  destruct (loop_body_cases chunk_size st line)
    as [(_ & ->)|[(Hfit & E & ->)|(Hfit & _ & ->)]]; cbn [chunks current_chunk].
  - now rewrite <- long_ones_app.
  - rewrite E in *. rewrite !long_ones_app.
    rewrite (long_ones_short EmptyString) by (rewrite len_empty in *; lia).
    now rewrite app_nil_r.
  - rewrite !long_ones_app.
    rewrite (long_ones_short (current_chunk st)) by lia.
    rewrite (long_ones_short line) by lia.
    rewrite long_ones_short; [now rewrite !app_nil_r|].
    rewrite len_append, len_String. lia.
Qed.

Lemma run_loop_long_ones (lines : list string) (st : locals) :
  long_ones chunk_size (held (run_loop chunk_size lines st))
  = long_ones chunk_size (held st) ++ long_ones chunk_size lines.
Proof.
  revert st; induction lines as [|line lines IH]; intros st.
  - cbn. now rewrite app_nil_r.
  - rewrite run_loop_cons, IH, loop_body_long_ones.
    rewrite <- app_assoc, <- long_ones_app. reflexivity.
Qed.

Lemma finish_long_ones (st : locals) :
  0 <= chunk_size ->
  long_ones chunk_size (finish st) = long_ones chunk_size (held st).
Proof.
  intros Hpos. unfold finish, held.
  destruct (truthy (current_chunk st)) eqn:E; [reflexivity|].
  apply truthy_false in E. rewrite E, long_ones_app.
  rewrite long_ones_short by (rewrite len_empty; lia).
  now rewrite app_nil_r.
Qed.

(** The over-long chunks of the result are the over-long lines of the
    text, in the same order and as many times. *)
Lemma split_response_long_ones (text : string) :
  0 <= chunk_size ->
  long_ones chunk_size (split_response text chunk_size)
  = long_ones chunk_size (split_lines text).
Proof.
  intros Hpos.
  destruct (Z.le_gt_cases (len text) chunk_size) as [Hfast|Hslow].
  - rewrite split_response_fast by assumption.
    rewrite long_ones_short by assumption.
    symmetry. apply long_ones_all_short.
    intros s Hs. apply split_lines_len in Hs. lia.
  - rewrite split_response_slow by lia.
    rewrite finish_long_ones, run_loop_long_ones by assumption.
    unfold held; cbn [chunks current_chunk locals0 app].
    now rewrite long_ones_short by (rewrite len_empty; lia).
Qed.

End OverLong.

(** ** Texts without blank lines *)

Section NoBlank.

Variable chunk_size : Z.

Lemma no_blank_line_In (text line : string) :
  no_blank_line text = true -> In line (split_lines text) -> truthy line = true.
Proof.
  unfold no_blank_line. intros H Hin.
  rewrite forallb_forall in H. now apply H.
Qed.

(** While the buffer and the lines are non-empty, the loop only moves
    separators between "inside a chunk" and "between two chunks". *)
Lemma run_loop_join (lines : list string) (st : locals) :
  (forall line, In line lines -> truthy line = true) ->
  truthy (current_chunk st) = true ->
  truthy (current_chunk (run_loop chunk_size lines st)) = true
  /\ join_lines (held (run_loop chunk_size lines st))
     = join_lines (chunks st ++ current_chunk st :: lines).
Proof.
  revert st; induction lines as [|line lines IH]; intros st Hlines Hcur.
  - split; [exact Hcur | reflexivity].
  - rewrite run_loop_cons.
    assert (Hline : truthy line = true) by (apply Hlines; now left).
    assert (Hrest : forall l, In l lines -> truthy l = true)
      by (intros l Hl; apply Hlines; now right).
    destruct (loop_body_cases chunk_size st line)
      as [(_ & E)|[(_ & Ecur & _)|(_ & _ & E)]].
    + destruct (IH (loop_body chunk_size st line) Hrest) as [IH1 IH2];
        rewrite E in *; cbn [chunks current_chunk] in *; [exact Hline|].
      split; [exact IH1|]. rewrite IH2, <- app_assoc. reflexivity.
    + rewrite Ecur in Hcur. discriminate.
    + destruct (IH (loop_body chunk_size st line) Hrest) as [IH1 IH2];
        rewrite E in *; cbn [chunks current_chunk] in *.
      { now apply truthy_append_l. }
      split; [exact IH1|]. rewrite IH2. apply join_lines_glue.
Qed.

(** The shape of the locals after the first line, when it leaves room
    for a separator. *)
Lemma loop_body_first (line : string) :
  len line < chunk_size ->
  loop_body chunk_size locals0 line = Locals [] line.
Proof.
  intros H. apply loop_body_start; cbn [current_chunk locals0]; [|reflexivity].
  rewrite len_empty. lia.
Qed.

Lemma split_response_no_blank_shape (text : string) :
  no_blank_line text = true ->
  chunk_size < len text ->
  len (first_line text) < chunk_size ->
  exists st,
    split_response text chunk_size = held st
    /\ truthy (current_chunk st) = true
    /\ join_lines (held st) = text
    /\ Forall (fun c => truthy c = true) (chunks st).
Proof.
  intros Hnb Hslow Hfirst.
  rewrite split_response_slow by assumption.
  pose proof (fun l => no_blank_line_In text l Hnb) as Hlines.
  pose proof (join_split text) as Hjoin.
  unfold first_line in Hfirst.
  destruct (split_lines_cons text) as (l0 & rest & E). rewrite E in *.
  cbn [hd] in Hfirst.
  rewrite run_loop_cons, loop_body_first by assumption.
  assert (H0 : truthy l0 = true) by (apply Hlines; now left).
  assert (Hrest : forall l, In l rest -> truthy l = true)
    by (intros l Hl; apply Hlines; now right).
  destruct (run_loop_join rest (Locals [] l0) Hrest H0) as [Hcur Hj].
  exists (run_loop chunk_size rest (Locals [] l0)).
  split; [unfold finish; now rewrite Hcur|].
  split; [exact Hcur|].
  split; [now rewrite Hj|].
  apply (run_loop_invariant chunk_size
           (fun st => truthy (current_chunk st) = true
                      /\ Forall (fun c => truthy c = true) (chunks st)) rest);
    [|split; [exact H0 | constructor]].
  intros st line Hin [Hc Hch].
  destruct (loop_body_cases chunk_size st line)
    as [(_ & ->)|[(_ & Ecur & _)|(_ & _ & ->)]]; cbn [chunks current_chunk].
  - split; [now apply Hrest|]. apply Forall_app. split; [exact Hch | now constructor].
  - rewrite Ecur in Hc. discriminate.
  - split; [now apply truthy_append_l | exact Hch].
Qed.

End NoBlank.

(** ** Chunks are runs of consecutive lines *)

Section Runs.

Variable chunk_size : Z.
Variable all_lines : list string.

Lemma joined_run_suffix (visited pending : list string) (st : locals) :
  all_lines = visited ++ pending ->
  buffer_is_suffix visited st ->
  joined_run all_lines (current_chunk st).
Proof.
  intros HL (before & run & Hv & Hc).
  exists before, run, pending. split; [|exact Hc].
  now rewrite HL, Hv, <- app_assoc.
Qed.

Lemma loop_body_runs (visited pending : list string) (line : string) (st : locals) :
  all_lines = visited ++ line :: pending ->
  Forall (joined_run all_lines) (chunks st) ->
  buffer_is_suffix visited st ->
  Forall (joined_run all_lines) (chunks (loop_body chunk_size st line))
  /\ buffer_is_suffix (visited ++ [line]) (loop_body chunk_size st line).
Proof.
  intros HL Hch Hbuf.
  assert (Hnew : exists before run,
             visited ++ [line] = before ++ run /\ line = join_lines run)
    by (now exists visited, [line]).
  destruct (loop_body_cases chunk_size st line)
    as [(_ & ->)|[(_ & _ & ->)|(_ & Hcur & ->)]];
    unfold buffer_is_suffix; cbn [chunks current_chunk].
  - split; [|exact Hnew].
    apply Forall_app. split; [exact Hch|].
    constructor; [|constructor]. eapply joined_run_suffix; eassumption.
  - now split.
  - split; [exact Hch|].
    destruct Hbuf as (before & run & Hv & Hc).
    exists before, (run ++ [line]). split; [now rewrite Hv, app_assoc|].
    rewrite join_lines_snoc, Hc; [reflexivity|].
    intros ->. cbn in Hc. rewrite Hc in Hcur. discriminate.
Qed.

Lemma run_loop_runs (pending visited : list string) (st : locals) :
  all_lines = visited ++ pending ->
  Forall (joined_run all_lines) (chunks st) ->
  buffer_is_suffix visited st ->
  Forall (joined_run all_lines) (finish (run_loop chunk_size pending st)).
Proof.
  revert visited st; induction pending as [|line pending IH];
    intros visited st HL Hch Hbuf.
  - cbn [run_loop fold_left]. unfold finish.
    destruct (truthy (current_chunk st)); [|exact Hch].
    apply Forall_app. split; [exact Hch|].
    constructor; [|constructor]. eapply joined_run_suffix; eassumption.
  - rewrite run_loop_cons.
    destruct (loop_body_runs visited pending line st HL Hch Hbuf) as [Hch' Hbuf'].
    apply (IH (visited ++ [line])); [|assumption..].
    now rewrite <- app_assoc.
Qed.

End Runs.

Lemma split_response_runs (text : string) (chunk_size : Z) :
  Forall (joined_run (split_lines text)) (split_response text chunk_size).
Proof.
  unfold split_response. destruct (len text <=? chunk_size).
  - constructor; [|constructor].
    exists [], (split_lines text), []. split; [now rewrite app_nil_r|].
    symmetry. apply join_split.
  - apply (run_loop_runs chunk_size (split_lines text) (split_lines text) []);
      [reflexivity | constructor|].
    now exists [], [].
Qed.

(** ** The loop against the specification's wording *)

Lemma loop_body_spec_body (chunk_size : Z) (st : locals) (line : string) :
  len line <> chunk_size ->
  loop_body chunk_size st line = spec_body chunk_size st line.
Proof.
  intros Hne. unfold loop_body, spec_body.
  destruct (truthy (current_chunk st)) eqn:E; [reflexivity|].
  apply truthy_false in E. rewrite E, len_empty.
  destruct (Z.gtb_spec (0 + len line + 1) chunk_size),
           (Z.gtb_spec (0 + len line + 0) chunk_size); (reflexivity || lia).
Qed.

(** The two agree on every text none of whose lines is exactly
    [chunk_size] characters long. *)
Lemma split_response_spec_greedy (text : string) (chunk_size : Z) :
  chunk_size < len text ->
  (forall line, In line (split_lines text) -> len line <> chunk_size) ->
  split_response text chunk_size = spec_greedy text chunk_size.
Proof.
  intros Hslow Hne. rewrite split_response_slow by assumption.
  unfold spec_greedy, run_loop. f_equal.
  generalize locals0. revert Hne.
  induction (split_lines text) as [|line lines IH]; intros Hne st; [reflexivity|].
  cbn [fold_left]. rewrite loop_body_spec_body by (apply Hne; now left).
  apply IH. intros l Hl. apply Hne. now right.
Qed.

(** ** The machine runs to completion *)

Lemma exec_loop (chunk_size : Z) (pending : list string) (st : locals) :
  exec (S (List.length pending)) chunk_size (InLoop pending st)
  = Some (finish (run_loop chunk_size pending st)).
Proof.
  revert st; induction pending as [|line pending IH]; intros st.
  - reflexivity.
  - rewrite run_loop_cons, <- IH. reflexivity.
Qed.

(** More fuel does not change an answer. *)
Lemma exec_more_fuel (chunk_size : Z) (fuel extra : nat) (c : config) (r : list string) :
  exec fuel chunk_size c = Some r -> exec (fuel + extra) chunk_size c = Some r.
Proof.
  revert c; induction fuel as [|fuel IH]; intros c.
  - destruct c; cbn; [discriminate|]. destruct extra; auto.
  - destruct c as [pending st|res]; [|now cbn].
    cbn [Nat.add exec]. apply IH.
Qed.

(** A text of [n] characters has at most [n + 1] lines. *)
Lemma split_lines_count (s : string) :
  (List.length (split_lines s) <= S (String.length s))%nat.
Proof.
  induction s as [|c s IH]; [cbn; lia|].
  cbn [split_lines String.length].
  destruct (Ascii.eqb c LF); [cbn [List.length]; lia|].
  destruct (split_lines s); cbn [List.length] in *; lia.
Qed.

(** ** The first chunk when the first line fills the bound *)

Lemma split_response_head_empty (text : string) (chunk_size : Z) :
  chunk_size < len text ->
  chunk_size <= len (first_line text) ->
  exists rest, split_response text chunk_size = EmptyString :: rest.
Proof.
  intros Hslow Hfirst. rewrite split_response_slow by assumption.
  unfold first_line in Hfirst.
  destruct (split_lines_cons text) as (l0 & lines & E). rewrite E in *.
  cbn [hd] in Hfirst.
  rewrite run_loop_cons, loop_body_seal
    by (cbn [current_chunk locals0]; rewrite len_empty; lia).
  cbn [chunks current_chunk locals0 app].
  destruct (finish_chunks_prefix (run_loop chunk_size lines (Locals [EmptyString] l0)))
    as (m2 & ->).
  destruct (run_loop_chunks_prefix chunk_size lines (Locals [EmptyString] l0))
    as (m1 & ->).
  cbn [chunks app]. now eexists.
Qed.

(** ** When nothing is returned *)

Section EmptyResult.

Variable chunk_size : Z.

Lemma all_blank_In (text line : string) :
  all_blank text = true -> In line (split_lines text) -> line = EmptyString.
Proof.
  unfold all_blank. intros H Hin. rewrite forallb_forall in H.
  apply H in Hin. apply negb_true_iff in Hin. now apply truthy_false.
Qed.

(** A blank line leaves the initial locals as they are. *)
Lemma run_loop_blank (lines : list string) :
  0 < chunk_size ->
  (forall line, In line lines -> line = EmptyString) ->
  run_loop chunk_size lines locals0 = locals0.
Proof.
  intros Hpos. induction lines as [|line lines IH]; intros Hlines; [reflexivity|].
  rewrite run_loop_cons, (Hlines line) by now left.
  rewrite loop_body_start
    by (cbn [current_chunk locals0]; rewrite ?len_empty; (lia || reflexivity)).
  apply IH. intros l Hl. apply Hlines. now right.
Qed.

(** The loop ends with nothing to return only if it never left the
    initial locals. *)
Lemma finish_run_loop_nil (lines : list string) (st : locals) :
  finish (run_loop chunk_size lines st) = [] ->
  chunks st = [] /\ current_chunk st = EmptyString
  /\ (forall line, In line lines -> line = EmptyString /\ 0 < chunk_size).
Proof.
  revert st; induction lines as [|line lines IH]; intros st H.
  - cbn [run_loop fold_left] in H. unfold finish in H.
    destruct (truthy (current_chunk st)) eqn:E.
    + now destruct (chunks st).
    + apply truthy_false in E.
      split; [exact H | split; [exact E | intros l []]].
  - rewrite run_loop_cons in H. apply IH in H as (Hch & Hcur & Hrest).
    destruct (loop_body_cases chunk_size st line)
      as [(_ & E)|[(Hfit & Ecur & E)|(_ & Ht & E)]];
      rewrite E in Hch, Hcur; cbn [chunks current_chunk] in Hch, Hcur.
    + now destruct (chunks st).
    + split; [exact Hch | split; [exact Ecur|]].
      intros l [<-|Hl]; [|now apply Hrest].
      split; [exact Hcur|]. rewrite Ecur, Hcur, len_empty in Hfit. lia.
    + apply (truthy_append_l _ (String LF line)) in Ht. rewrite Hcur in Ht. discriminate.
Qed.

End EmptyResult.

(** ** Non-empty chunks *)

(** A non-empty run has at least one line. *)
Lemma joined_run_line_run (lines : list string) (c : string) :
  joined_run lines c -> c <> EmptyString -> line_run lines c.
Proof.
  intros (before & run & after & Hl & Hc) Hne.
  exists before, run, after. split; [exact Hl | split; [|exact Hc]].
  intros ->. now apply Hne.
Qed.



(** * The claims of the specification *)

(** C1, as stated, fails: the text ["\nab\ncd"] with bound 5 comes back
    as the single chunk ["ab\ncd"]; the blank first line is gone, because
    an empty buffer receives no separator. *)
Lemma round_trip_counterexample :
  0 < 5
  /\ split_response leading_blank 5 = [ab_cd]
  /\ join_lines (split_response leading_blank 5) <> leading_blank.
Proof. split; [reflexivity | split; [reflexivity | discriminate]]. Qed.

(** C1, amended: joining the chunks of [split_response] with the line
    separator gives back the text whenever the text fits in one chunk, or
    none of its lines is empty and its first line is shorter than
    [chunk_size]. *)
Theorem round_trip_amended (text : string) (chunk_size : Z) :
  len text <= chunk_size
  \/ (no_blank_line text = true /\ len (first_line text) < chunk_size) ->
  join_lines (split_response text chunk_size) = text.
Proof.
  intros [Hfast|[Hnb Hfirst]].
  - now rewrite split_response_fast.
  - destruct (Z.le_gt_cases (len text) chunk_size) as [Hfast|Hslow].
    + now rewrite split_response_fast.
    + destruct (split_response_no_blank_shape chunk_size text Hnb)
        as (st & -> & _ & Hj & _); [lia | assumption | exact Hj].
Qed.

Lemma round_trip_amended_witness :
  (len abc <= 3 \/ (no_blank_line abc = true /\ len (first_line abc) < 3))
  /\ join_lines (split_response abc 3) = abc.
Proof.
  assert (H : len abc <= 3 \/ (no_blank_line abc = true /\ len (first_line abc) < 3))
    by (right; split; reflexivity).
  split; [exact H | exact (round_trip_amended abc 3 H)].
Defined.

(** C2: for a positive [chunk_size], every chunk of [split_response] that
    is not a single line of the text longer than [chunk_size] by itself
    has at most [chunk_size] characters. *)
Theorem chunk_bound (text : string) (chunk_size : Z) (c : string) :
  0 < chunk_size ->
  In c (split_response text chunk_size) ->
  ~ single_over_long_line chunk_size text c ->
  len c <= chunk_size.
Proof.
  intros Hpos Hin Hnot.
  pose proof (split_response_within_bound text chunk_size ltac:(lia)) as H.
  rewrite Forall_forall in H.
  destruct (H c Hin) as [Hle|Hlong]; [exact Hle | now destruct Hnot].
Qed.

Lemma chunk_bound_witness :
  0 < 3
  /\ In a_b (split_response abc 3)
  /\ ~ single_over_long_line 3 abc a_b
  /\ len a_b <= 3.
Proof.
  assert (H1 : 0 < 3) by reflexivity.
  assert (H2 : In a_b (split_response abc 3)) by (left; reflexivity).
  assert (H3 : ~ single_over_long_line 3 abc a_b) by (intros [_ H]; discriminate H).
  exact (conj H1 (conj H2 (conj H3 (chunk_bound abc 3 a_b H1 H2 H3)))).
Defined.

(** C3: a text no longer than [chunk_size] comes back as the one-element
    list holding the text itself; so the empty text with the default
    bound gives [[""]]. *)
Theorem fast_path (text : string) (chunk_size : Z) :
  len text <= chunk_size ->
  split_response text chunk_size = [text]
  /\ split_response EmptyString default_chunk_size = [EmptyString].
Proof.
  intros H. split; [now apply split_response_fast | reflexivity].
Qed.

Lemma fast_path_witness :
  len hello <= default_chunk_size
  /\ split_response hello default_chunk_size = [hello].
Proof.
  assert (H : len hello <= default_chunk_size) by discriminate.
  split; [exact H | exact (proj1 (fast_path hello default_chunk_size H))].
Defined.

(** C4: for a positive [chunk_size], every line of the text that is
    longer than [chunk_size] is itself one of the chunks, character for
    character. *)
Theorem over_long_line_own_chunk (text : string) (chunk_size : Z) (line : string) :
  0 < chunk_size ->
  In line (split_lines text) ->
  chunk_size < len line ->
  In line (split_response text chunk_size).
Proof.
  intros Hpos Hin Hlong.
  assert (H : In line (long_ones chunk_size (split_lines text))).
  { apply filter_In. split; [exact Hin | now apply over_long_true]. }
  rewrite <- split_response_long_ones in H by lia.
  now apply filter_In in H.
Qed.

Lemma over_long_line_own_chunk_witness :
  0 < 3
  /\ In "abcd"%string (split_lines long_first)
  /\ 3 < len "abcd"
  /\ In "abcd"%string (split_response long_first 3).
Proof.
  assert (H1 : 0 < 3) by reflexivity.
  assert (H2 : In "abcd"%string (split_lines long_first)) by (left; reflexivity).
  assert (H3 : 3 < len "abcd") by reflexivity.
  exact (conj H1 (conj H2 (conj H3
           (over_long_line_own_chunk long_first 3 "abcd" H1 H2 H3)))).
Defined.

(** C5 does not hold of the code: for 2000 times ["x"] and the bound 1990
    the method returns two chunks, the empty string and then the line. *)
Theorem x2000_run :
  split_response x2000 1990 = [EmptyString; x2000]
  /\ split_response x2000 1990 <> [x2000].
Proof. split; [vm_compute; reflexivity | vm_compute; discriminate]. Qed.




(** C7 does not hold of the code: on ["abc\nd"] with the bound 3 the
    method and the greedy scan of the specification, whose size test
    counts no separator for an empty buffer, give different results. *)
Theorem greedy_divergence :
  3 < len exact_fit
  /\ split_response exact_fit 3 = [EmptyString; "abc"%string; "d"%string]
  /\ spec_greedy exact_fit 3 = ["abc"%string; "d"%string].
Proof. split; [reflexivity | split; reflexivity]. Qed.

(** C8: [split_response("a\nb\nc", 3)] is [["a\nb", "c"]]. *)
Theorem scenario_abc :
  split_response abc 3 = [a_b; "c"%string].
Proof. reflexivity. Qed.

(** C9: the method terminates on every text and every bound: run as a
    machine, it returns after at most [len(text) + 2] steps, and what it
    returns is the value of [split_response].  No statement of the method
    can raise: it only measures, splits and concatenates strings, compares
    integers and appends to a list. *)
Theorem split_response_total (text : string) (chunk_size : Z) (fuel : nat) :
  (String.length text + 2 <= fuel)%nat ->
  exec fuel chunk_size (enter text chunk_size)
  = Some (split_response text chunk_size).
Proof.
  intros Hfuel.
  pose proof (split_lines_count text) as Hcount.
  replace fuel with (S (List.length (split_lines text))
                     + (fuel - S (List.length (split_lines text))))%nat by lia.
  apply exec_more_fuel.
  unfold enter, split_response.
  destruct (len text <=? chunk_size); [reflexivity | apply exec_loop].
Qed.

Lemma split_response_total_witness :
  (String.length abc + 2 <= 7)%nat
  /\ exec 7 3 (enter abc 3) = Some (split_response abc 3).
Proof.
  assert (H : (String.length abc + 2 <= 7)%nat) by (cbn; lia).
  exact (conj H (split_response_total abc 3 7 H)).
Defined.

(** C10: when the text is longer than [chunk_size] and its first line has
    at least [chunk_size] characters, the first chunk returned is the
    empty string. *)
Theorem leading_empty_chunk (text : string) (chunk_size : Z) :
  chunk_size < len text ->
  chunk_size <= len (first_line text) ->
  hd_error (split_response text chunk_size) = Some EmptyString.
Proof.
  intros Hslow Hfirst.
  destruct (split_response_head_empty text chunk_size Hslow Hfirst) as (rest & ->).
  reflexivity.
Qed.

Lemma leading_empty_chunk_witness :
  3 < len exact_fit
  /\ 3 <= len (first_line exact_fit)
  /\ hd_error (split_response exact_fit 3) = Some EmptyString.
Proof.
  assert (H1 : 3 < len exact_fit) by reflexivity.
  assert (H2 : 3 <= len (first_line exact_fit)) by discriminate.
  exact (conj H1 (conj H2 (leading_empty_chunk exact_fit 3 H1 H2))).
Defined.

(** * Further properties of [split_response] *)

(** ** More on [split] *)

(** Splitting distributes over a separator. *)
Lemma split_lines_app_LF (a b : string) :
  split_lines (a ++ String LF b) = split_lines a ++ split_lines b.
Proof.
  induction a as [|c a IH]; cbn [String.append split_lines].
  - change (Ascii.eqb LF LF) with true. reflexivity.
  - rewrite IH. destruct (Ascii.eqb c LF); [reflexivity|].
    destruct (split_lines_cons a) as (l & ls & ->). reflexivity.
Qed.

(** A string without separator is its own single line. *)
Lemma split_lines_one (s : string) : has_LF s = false -> split_lines s = [s].
Proof.
  induction s as [|c s IH]; [reflexivity|].
  cbn [has_LF split_lines]. intros H.
  apply orb_false_iff in H as [Hc Hs]. now rewrite Hc, IH.
Qed.

Lemma first_line_one (s : string) : has_LF s = false -> first_line s = s.
Proof. intros H. unfold first_line. now rewrite split_lines_one. Qed.

Lemma first_line_app_LF (a b : string) :
  first_line (a ++ String LF b) = first_line a.
Proof.
  unfold first_line. rewrite split_lines_app_LF.
  destruct (split_lines_cons a) as (l & ls & ->). reflexivity.
Qed.

(** The length of a joined list, counted line by line. *)
Lemma len_join_lines (line : string) (more : list string) :
  len (join_lines (line :: more))
  = len line + fold_right (fun l n => len l + 1 + n) 0 more.
Proof.
  revert line; induction more as [|m more IH]; intros line.
  - cbn [join_lines fold_right]. lia.
  - rewrite join_lines_cons2, len_append, len_String, IH.
    cbn [fold_right]. lia.
Qed.

(** ** Non-empty lines survive, in order *)

Section NonBlank.

Variable chunk_size : Z.

Lemma lines_of_app (l1 l2 : list string) :
  lines_of (l1 ++ l2) = lines_of l1 ++ lines_of l2.
Proof. apply flat_map_app. Qed.

Lemma nonblank_app (l1 l2 : list string) :
  nonblank (l1 ++ l2) = nonblank l1 ++ nonblank l2.
Proof. apply filter_app. Qed.

Lemma lines_of_one (s : string) : lines_of [s] = split_lines s.
Proof. unfold lines_of. cbn. apply app_nil_r. Qed.

Lemma loop_body_nonblank (st : locals) (line : string) :
  has_LF line = false ->
  nonblank (lines_of (held (loop_body chunk_size st line)))
  = nonblank (lines_of (held st)) ++ nonblank [line].
Proof.
  intros Hline. unfold held.
  destruct (loop_body_cases chunk_size st line)
    as [(_ & ->)|[(_ & E & ->)|(_ & _ & ->)]]; cbn [chunks current_chunk].
  - rewrite (lines_of_app (_ ++ _)), nonblank_app, lines_of_one.
    now rewrite split_lines_one.
  - rewrite E, !lines_of_app, !nonblank_app, !lines_of_one.
    rewrite (split_lines_one line Hline). cbn [split_lines nonblank filter truthy].
    now rewrite app_nil_r.
  - rewrite !lines_of_app, !nonblank_app, !lines_of_one.
    rewrite split_lines_app_LF, nonblank_app, (split_lines_one line Hline).
    now rewrite app_assoc.
Qed.

Lemma run_loop_nonblank (lines : list string) (st : locals) :
  (forall line, In line lines -> has_LF line = false) ->
  nonblank (lines_of (held (run_loop chunk_size lines st)))
  = nonblank (lines_of (held st)) ++ nonblank lines.
Proof.
  revert st; induction lines as [|line lines IH]; intros st Hlines.
  - cbn. now rewrite app_nil_r.
  - rewrite run_loop_cons, IH by (intros l Hl; apply Hlines; now right).
    rewrite loop_body_nonblank by (apply Hlines; now left).
    rewrite <- app_assoc, <- nonblank_app. reflexivity.
Qed.

Lemma finish_nonblank (st : locals) :
  nonblank (lines_of (finish st)) = nonblank (lines_of (held st)).
Proof.
  unfold finish, held. destruct (truthy (current_chunk st)) eqn:E; [reflexivity|].
  apply truthy_false in E. rewrite E, lines_of_app, nonblank_app, lines_of_one.
  cbn. now rewrite app_nil_r.
Qed.

End NonBlank.

(** ** The chunks hold no more characters than the text *)

Section TotalLength.

Variable chunk_size : Z.

Lemma total_len_app (l1 l2 : list string) :
  total_len (l1 ++ l2) = total_len l1 + total_len l2.
Proof.
  unfold total_len.
  induction l1 as [|c l1 IH]; cbn [app fold_right]; [lia|].
  rewrite IH. lia.
Qed.

Lemma total_len_one (s : string) : total_len [s] = len s.
Proof. cbn. lia. Qed.

(** An iteration adds the line and at most one separator. *)
Lemma loop_body_total_len (st : locals) (line : string) :
  total_len (held (loop_body chunk_size st line))
  <= total_len (held st) + len line + 1.
Proof.
  unfold held.
  destruct (loop_body_cases chunk_size st line)
    as [(_ & ->)|[(_ & E & ->)|(_ & _ & ->)]]; cbn [chunks current_chunk].
  - rewrite !total_len_app, !total_len_one. lia.
  - rewrite E, !total_len_app, !total_len_one, len_empty. lia.
  - rewrite !total_len_app, !total_len_one, len_append, len_String. lia.
Qed.

(** With an empty buffer it adds the line only. *)
Lemma loop_body_total_len_first (st : locals) (line : string) :
  current_chunk st = EmptyString ->
  total_len (held (loop_body chunk_size st line)) = total_len (held st) + len line.
Proof.
  intros E. unfold held.
  destruct (loop_body_cases chunk_size st line)
    as [(_ & ->)|[(_ & _ & ->)|(_ & Hcur & _)]]; cbn [chunks current_chunk].
  - rewrite E, !total_len_app, !total_len_one, len_empty. lia.
  - rewrite E, !total_len_app, !total_len_one, len_empty. lia.
  - rewrite E in Hcur. discriminate.
Qed.

Lemma run_loop_total_len (lines : list string) (st : locals) :
  total_len (held (run_loop chunk_size lines st))
  <= total_len (held st) + fold_right (fun l n => len l + 1 + n) 0 lines.
Proof.
  revert st; induction lines as [|line lines IH]; intros st.
  - cbn [run_loop fold_left fold_right]. lia.
  - rewrite run_loop_cons. cbn [fold_right].
    pose proof (IH (loop_body chunk_size st line)).
    pose proof (loop_body_total_len st line). lia.
Qed.

Lemma finish_total_len (st : locals) :
  total_len (finish st) <= total_len (held st).
Proof.
  unfold finish, held. destruct (truthy (current_chunk st)); [lia|].
  rewrite total_len_app, total_len_one. pose proof (len_nonneg (current_chunk st)). lia.
Qed.

End TotalLength.

(** ** The number of chunks *)

Section Count.

Variable chunk_size : Z.

Lemma loop_body_count (st : locals) (line : string) :
  (List.length (chunks (loop_body chunk_size st line)) <= S (List.length (chunks st)))%nat.
Proof.
  destruct (loop_body_cases chunk_size st line)
    as [(_ & ->)|[(_ & _ & ->)|(_ & _ & ->)]]; cbn [chunks];
    rewrite ?length_app; cbn [List.length]; lia.
Qed.

Lemma run_loop_count (lines : list string) (st : locals) :
  (List.length (chunks (run_loop chunk_size lines st))
   <= List.length (chunks st) + List.length lines)%nat.
Proof.
  revert st; induction lines as [|line lines IH]; intros st.
  - cbn [run_loop fold_left List.length]. lia.
  - rewrite run_loop_cons. cbn [List.length].
    pose proof (IH (loop_body chunk_size st line)).
    pose proof (loop_body_count st line). lia.
Qed.

Lemma finish_count (st : locals) :
  (List.length (finish st) <= S (List.length (chunks st)))%nat.
Proof.
  unfold finish. destruct (truthy (current_chunk st));
    rewrite ?length_app; cbn [List.length]; lia.
Qed.

End Count.

(** ** Greedy packing *)

Section Greedy.

Variable chunk_size : Z.

Lemma greedy_packed_snoc (l : list string) (c d : string) :
  greedy_packed chunk_size (l ++ [c]) ->
  chunk_size < len c + len (first_line d) + 1 ->
  greedy_packed chunk_size (l ++ [c; d]).
Proof.
  intros H Hcd. induction l as [|x l IH].
  - cbn. auto.
  - destruct l as [|y l]; cbn [app greedy_packed] in *.
    + destruct H as [H1 _]. auto.
    + destruct H as [H1 H2]. split; [exact H1 | now apply IH].
Qed.

(** The last chunk may be replaced by one whose first line is no shorter. *)
Lemma greedy_packed_last (l : list string) (c c' : string) :
  greedy_packed chunk_size (l ++ [c]) ->
  len (first_line c) <= len (first_line c') ->
  greedy_packed chunk_size (l ++ [c']).
Proof.
  intros H Hcc. induction l as [|x l IH].
  - cbn. auto.
  - destruct l as [|y l]; cbn [app greedy_packed] in *.
    + destruct H as [H1 _]. split; [lia | auto].
    + destruct H as [H1 H2]. split; [exact H1 | now apply IH].
Qed.

Lemma greedy_packed_removelast (l : list string) (c : string) :
  greedy_packed chunk_size (l ++ [c]) -> greedy_packed chunk_size l.
Proof.
  intros H. induction l as [|x l IH]; [exact I|].
  destruct l as [|y l]; cbn [app greedy_packed] in *.
  - auto.
  - destruct H as [H1 H2]. split; [exact H1 | now apply IH].
Qed.

Lemma loop_body_greedy (st : locals) (line : string) :
  has_LF line = false ->
  greedy_packed chunk_size (held st) ->
  greedy_packed chunk_size (held (loop_body chunk_size st line)).
Proof.
  intros Hline H. unfold held in *.
  destruct (loop_body_cases chunk_size st line)
    as [(Hseal & ->)|[(_ & E & ->)|(_ & _ & ->)]]; cbn [chunks current_chunk].
  - rewrite <- app_assoc. cbn [app]. apply greedy_packed_snoc; [exact H|].
    now rewrite first_line_one.
  - apply greedy_packed_last with (c := current_chunk st); [exact H|].
    rewrite E. apply len_nonneg.
  - apply greedy_packed_last with (c := current_chunk st); [exact H|].
    rewrite first_line_app_LF. lia.
Qed.

Lemma finish_greedy (st : locals) :
  greedy_packed chunk_size (held st) -> greedy_packed chunk_size (finish st).
Proof.
  unfold finish, held. destruct (truthy (current_chunk st)); [auto|].
  apply greedy_packed_removelast.
Qed.

Lemma split_response_greedy (text : string) :
  greedy_packed chunk_size (split_response text chunk_size).
Proof.
  unfold split_response. destruct (len text <=? chunk_size); [cbn; auto|].
  apply finish_greedy.
  apply (run_loop_invariant chunk_size
           (fun st => greedy_packed chunk_size (held st)) (split_lines text)).
  - intros st line Hin. apply loop_body_greedy. now apply split_lines_no_LF in Hin.
  - cbn. auto.
Qed.

(** What [greedy_packed] says about two neighbours. *)
Lemma greedy_packed_neighbours (l before after : list string) (c1 c2 : string) :
  greedy_packed chunk_size l ->
  l = before ++ c1 :: c2 :: after ->
  chunk_size < len c1 + len (first_line c2) + 1.
Proof.
  intros H ->. induction before as [|x before IH].
  - now destruct H as [H _].
  - apply IH. now destruct H as [_ H].
Qed.

End Greedy.

(** ** Texts without separator, and bounds that are not positive *)

Section Degenerate.

Variable chunk_size : Z.

(** With a bound of zero or less every iteration seals the buffer. *)
Lemma run_loop_nonpositive (line : string) (lines : list string) (st : locals) :
  chunk_size <= 0 ->
  run_loop chunk_size (line :: lines) st
  = Locals (chunks st ++ current_chunk st :: removelast (line :: lines))
           (last (line :: lines) EmptyString).
Proof.
  intros Hneg. revert line st; induction lines as [|l lines IH]; intros line st;
    rewrite run_loop_cons, loop_body_seal
      by (pose proof (len_nonneg (current_chunk st)); pose proof (len_nonneg line); lia).
  - reflexivity.
  - rewrite IH. cbn [chunks current_chunk]. rewrite <- app_assoc. reflexivity.
Qed.

End Degenerate.

(** ** How a chunk begins *)

Section Beginning.

Variable chunk_size : Z.

Lemma no_LF_starts (s : string) : has_LF s = false -> starts_with_LF s = false.
Proof.
  destruct s as [|c s]; [reflexivity|]. cbn [has_LF starts_with_LF].
  intros H. now apply orb_false_iff in H as [H _].
Qed.

Lemma starts_with_LF_append (s t : string) :
  truthy s = true -> starts_with_LF (s ++ t) = starts_with_LF s.
Proof. destruct s; [discriminate | reflexivity]. Qed.

Lemma loop_body_starts (st : locals) (line : string) :
  has_LF line = false ->
  Forall (fun c => starts_with_LF c = false) (held st) ->
  Forall (fun c => starts_with_LF c = false) (held (loop_body chunk_size st line)).
Proof.
  unfold held. intros Hline H. apply Forall_app in H as [Hch Hcur].
  apply no_LF_starts in Hline.
  destruct (loop_body_cases chunk_size st line)
    as [(_ & ->)|[(_ & _ & ->)|(_ & Ht & ->)]]; cbn [chunks current_chunk].
  - repeat (apply Forall_app; split); auto.
  - apply Forall_app; split; auto.
  - apply Forall_app; split; [exact Hch|]. constructor; [|constructor].
    rewrite starts_with_LF_append by assumption. now inversion Hcur.
Qed.

End Beginning.

(** ** Statements *)

(** X1: whatever the text and the bound, the non-empty lines of the
    chunks, read chunk after chunk, are the non-empty lines of the text,
    in the same order: the method loses or adds nothing but blank lines. *)
Theorem nonblank_lines_preserved (text : string) (chunk_size : Z) :
  nonblank (lines_of (split_response text chunk_size)) = nonblank (split_lines text).
Proof.
  unfold split_response. destruct (len text <=? chunk_size).
  - now rewrite lines_of_one.
  - rewrite finish_nonblank, run_loop_nonblank; [reflexivity|].
    intros line. apply split_lines_no_LF.
Qed.

(** X2: the chunks together never hold more characters than the text. *)
Theorem total_len_bounded (text : string) (chunk_size : Z) :
  total_len (split_response text chunk_size) <= len text.
Proof.
  unfold split_response. destruct (len text <=? chunk_size).
  - rewrite total_len_one. lia.
  - pose proof (join_split text) as Hj.
    destruct (split_lines_cons text) as (l0 & rest & E). rewrite E in *.
    rewrite <- Hj, len_join_lines, run_loop_cons.
    pose proof (finish_total_len (run_loop chunk_size rest (loop_body chunk_size locals0 l0))).
    pose proof (run_loop_total_len chunk_size rest (loop_body chunk_size locals0 l0)).
    pose proof (loop_body_total_len_first chunk_size locals0 l0 eq_refl) as H1.
    change (total_len (held locals0)) with 0 in H1. lia.
Qed.

(** X3: the method returns at most one chunk more than the text has lines. *)
Theorem chunk_count_bounded (text : string) (chunk_size : Z) :
  (List.length (split_response text chunk_size) <= S (List.length (split_lines text)))%nat.
Proof.
  unfold split_response. destruct (len text <=? chunk_size).
  - cbn [List.length]. lia.
  - pose proof (finish_count (run_loop chunk_size (split_lines text) locals0)).
    pose proof (run_loop_count chunk_size (split_lines text) locals0).
    cbn [chunks locals0 List.length] in *. lia.
Qed.

(** X4: a chunk is closed only when the next line does not pass the size
    test: for two chunks that follow each other in the result, the length
    of the first plus the length of the first line of the second plus one
    exceeds [chunk_size]. *)
Theorem neighbours_do_not_fit (text : string) (chunk_size : Z)
    (before after : list string) (c1 c2 : string) :
  split_response text chunk_size = before ++ c1 :: c2 :: after ->
  chunk_size < len c1 + len (first_line c2) + 1.
Proof.
  intros E. eapply greedy_packed_neighbours; [|exact E].
  apply split_response_greedy.
Qed.

Lemma neighbours_do_not_fit_witness :
  split_response abc 3 = [] ++ a_b :: "c"%string :: []
  /\ 3 < len a_b + len (first_line "c") + 1.
Proof.
  assert (H : split_response abc 3 = [] ++ a_b :: "c"%string :: []) by reflexivity.
  exact (conj H (neighbours_do_not_fit abc 3 [] [] a_b "c" H)).
Defined.

(** X5: the method returns no chunk at all exactly when the bound is
    positive and the text is longer than the bound and made of line
    separators only. *)
Theorem empty_result_iff (text : string) (chunk_size : Z) :
  split_response text chunk_size = []
  <-> 0 < chunk_size /\ chunk_size < len text /\ all_blank text = true.
Proof.
  split.
  - intros H.
    destruct (Z.le_gt_cases (len text) chunk_size) as [Hfast|Hslow];
      [rewrite split_response_fast in H by assumption; discriminate|].
    rewrite split_response_slow in H by lia.
    apply finish_run_loop_nil in H as (_ & _ & Hall).
    destruct (split_lines_cons text) as (l0 & rest & E).
    split; [|split; [lia|]].
    + apply (Hall l0). rewrite E. now left.
    + unfold all_blank. apply forallb_forall. intros l Hl.
      apply Hall in Hl as [-> _]. reflexivity.
  - intros (Hpos & Hslow & Hall).
    rewrite split_response_slow by assumption.
    rewrite run_loop_blank; [reflexivity | assumption|].
    intros line. now apply all_blank_In.
Qed.

(** X6: a text without line separator that is longer than a bound of zero
    or more comes back as two chunks, the empty string and the text. *)
Theorem separator_free_text (text : string) (chunk_size : Z) :
  has_LF text = false ->
  0 <= chunk_size ->
  chunk_size < len text ->
  split_response text chunk_size = [EmptyString; text].
Proof.
  intros Hno Hpos Hslow.
  rewrite split_response_slow, split_lines_one by assumption.
  rewrite run_loop_cons, loop_body_seal
    by (cbn [current_chunk locals0]; rewrite len_empty; lia).
  cbn [run_loop fold_left]. unfold finish. cbn [chunks current_chunk locals0 app].
  destruct text; [rewrite len_empty in Hslow; lia | reflexivity].
Qed.

Lemma separator_free_text_witness :
  has_LF "abcd" = false /\ 0 <= 3 /\ 3 < len "abcd"
  /\ split_response "abcd" 3 = [EmptyString; "abcd"%string].
Proof.
  assert (H1 : has_LF "abcd" = false) by reflexivity.
  assert (H2 : 0 <= 3) by discriminate.
  assert (H3 : 3 < len "abcd") by reflexivity.
  exact (conj H1 (conj H2 (conj H3 (separator_free_text "abcd" 3 H1 H2 H3)))).
Defined.

(** X7: with a bound of zero or less, a text longer than the bound comes
    back as the empty string followed by its lines, one chunk per line;
    only a last line that is empty is left out. *)
Theorem nonpositive_bound (text : string) (chunk_size : Z) :
  chunk_size <= 0 ->
  chunk_size < len text ->
  split_response text chunk_size
  = EmptyString :: removelast (split_lines text)
    ++ (if truthy (last (split_lines text) EmptyString)
        then [last (split_lines text) EmptyString] else []).
Proof.
  intros Hneg Hslow. rewrite split_response_slow by assumption.
  destruct (split_lines_cons text) as (l0 & rest & ->).
  rewrite run_loop_nonpositive by assumption.
  unfold finish. cbn [chunks current_chunk locals0 app].
  destruct (truthy (last (l0 :: rest) EmptyString)).
  - reflexivity.
  - now rewrite app_nil_r.
Qed.

Lemma nonpositive_bound_witness :
  0 <= 0 /\ 0 < len abc
  /\ split_response abc 0 = [EmptyString; "a"; "b"; "c"]%string.
Proof.
  assert (H1 : 0 <= 0) by discriminate.
  assert (H2 : 0 < len abc) by reflexivity.
  exact (conj H1 (conj H2 (nonpositive_bound abc 0 H1 H2))).
Defined.

(** X8: when the text is longer than the bound, no chunk begins with a
    line separator: blank lines at the beginning of a chunk are dropped. *)
Theorem chunks_start_with_content (text : string) (chunk_size : Z) :
  chunk_size < len text ->
  Forall (fun c => starts_with_LF c = false) (split_response text chunk_size).
Proof.
  intros Hslow. rewrite split_response_slow by assumption.
  assert (H : Forall (fun c => starts_with_LF c = false)
                (held (run_loop chunk_size (split_lines text) locals0))).
  { apply (run_loop_invariant chunk_size
             (fun st => Forall (fun c => starts_with_LF c = false) (held st))).
    - intros st line Hin. apply loop_body_starts. now apply split_lines_no_LF in Hin.
    - repeat constructor. }
  unfold finish, held in *.
  destruct (truthy (current_chunk _)); [exact H | now apply Forall_app in H as [H _]].
Qed.

Lemma chunks_start_with_content_witness :
  5 < len leading_blank
  /\ Forall (fun c => starts_with_LF c = false) (split_response leading_blank 5).
Proof.
  assert (H : 5 < len leading_blank) by reflexivity.
  exact (conj H (chunks_start_with_content leading_blank 5 H)).
Defined.

(** X14: for a bound of zero or more, the chunks longer than the bound
    are the lines of the text longer than the bound, in the same order and
    as many times: no chunk of several lines exceeds the bound, and no
    over-long line is lost, repeated or moved. *)
Theorem over_long_chunks_are_lines (text : string) (chunk_size : Z) :
  0 <= chunk_size ->
  long_ones chunk_size (split_response text chunk_size)
  = long_ones chunk_size (split_lines text).
Proof. apply split_response_long_ones. Qed.

Lemma over_long_chunks_are_lines_witness :
  0 <= 3
  /\ long_ones 3 (split_response long_first 3) = long_ones 3 (split_lines long_first).
Proof.
  assert (H : 0 <= 3) by discriminate.
  exact (conj H (over_long_chunks_are_lines long_first 3 H)).
Defined.

(** X15: whatever the text and the bound, every chunk that is not empty
    is one or more consecutive lines of the text rejoined with the line
    separator: no line is cut and no two lines are swapped inside a chunk. *)
Theorem every_chunk_is_a_run (text : string) (chunk_size : Z) (c : string) :
  In c (split_response text chunk_size) ->
  c <> EmptyString ->
  line_run (split_lines text) c.
Proof.
  intros Hin Hne. apply joined_run_line_run; [|exact Hne].
  pose proof (split_response_runs text chunk_size) as H.
  rewrite Forall_forall in H. now apply H.
Qed.

Lemma every_chunk_is_a_run_witness :
  In a_b (split_response abc 3) /\ a_b <> EmptyString
  /\ line_run (split_lines abc) a_b.
Proof.
  assert (H1 : In a_b (split_response abc 3)) by (left; reflexivity).
  assert (H2 : a_b <> EmptyString) by discriminate.
  exact (conj H1 (conj H2 (every_chunk_is_a_run abc 3 a_b H1 H2))).
Defined.

(** * The command *)

Lemma send_accepted (env : collaborators) (msg : value) (w : world) :
  channel_send env msg = None ->
  send env msg w = (Ok tt, World (outbox w ++ [msg]) (log w) (requests w)).
Proof. intros H. unfold send. now rewrite H. Qed.

(** X10: when the documentation manager answers and the client raises,
    [create_assembly] logs the error, sends the apology of
    [get_claude_response] as a single message, and returns normally,
    provided the channel accepts that message. *)
Theorem create_assembly_client_failure
    (env : collaborators) (b : bot) (assembly_type : string) (w : world)
    (get_assembly_docs : string -> outcome (option string))
    (context : option string) (e : exn) :
  doc_manager b = Some get_assembly_docs ->
  get_assembly_docs assembly_type = Ok context ->
  claude_create env (claude_request (create_query assembly_type) context) = Raise e ->
  channel_send env (Text apology) = None ->
  create_assembly env b assembly_type w
  = (Ok tt,
     World (outbox w ++ [Text apology])
           (log w ++ [("Error getting Claude response: " ++ exn_text e)%string])
           (requests w ++ [claude_request (create_query assembly_type) context])).
Proof.
  intros Hdm Hdocs Hfail Hsend.
  unfold create_assembly. rewrite Hdm, Hdocs.
  unfold bind at 1. unfold get_claude_response. rewrite Hfail.
  cbn [bind logger_error ret outbox log requests split_response_any].
  change (split_response apology default_chunk_size) with [apology].
  cbn [map send_all]. unfold bind. rewrite send_accepted by assumption.
  reflexivity.
Qed.

Lemma create_assembly_client_failure_witness :
  create_assembly (Collaborators failing_client accepting_channel)
    bot_with_docs "Turret" world0
  = (Ok tt,
     World [Text apology]
           ["Error getting Claude response: timeout"%string]
           [claude_request (create_query "Turret") None]).
Proof.
  exact (create_assembly_client_failure
           (Collaborators failing_client accepting_channel)
           bot_with_docs "Turret" world0 (fun _ => Ok None) None
           (OtherException "timeout") eq_refl eq_refl eq_refl eq_refl).
Defined.
